(** * An unbalanced binary search tree over C [int] keys

    Shallow embedding of [data_structures/binary_trees/binary_search_tree.c].

    A [node *] is either the null pointer or the address of a heap cell with
    the three fields [left], [right] and [data].  Every cell is owned by
    exactly one parent link (or by the [root] variable of [main]), nothing is
    shared, so a pointer and the structure it reaches are modelled by one
    value of the inductive type [node].  Writing a field and returning the
    cell ([root->right = ...; return root;]) becomes rebuilding the cell.

    Keys and results have the C type [int].  Keys are only compared and
    copied, never computed with, so they are carried as integers of [Z]; the
    one place where the program does arithmetic on an [int] is the [+ 1] of
    [height], which is written with the 32-bit addition of [CInt].

    The only operation of the file that dereferences a pointer without
    testing it first is [getMax]; that dereference is modelled as a failure
    ([None]), and the functions that call [getMax] run in the option monad.

    The console side of the program is in the module [Console]: the text
    written on the standard output is a [string], the standard input is the
    list of the integers that [scanf] converts, and the loop of [main] is
    run for a bounded number of passes. *)

From Stdlib Require Import ZArith List Bool Lia Sorted Permutation.
From Stdlib Require Ascii String DecimalString DecimalZ.
Import ListNotations.
Local Open Scope Z_scope.

(** ** The C type [int] *)

Module CInt.

Definition INT_MIN : Z := -2147483648.
Definition INT_MAX : Z := 2147483647.

Definition in_range (z : Z) : Prop := INT_MIN <= z <= INT_MAX.

(** Two's complement reduction of a mathematical integer to 32 bits. *)
Definition wrap (z : Z) : Z := (z - INT_MIN) mod 2 ^ 32 + INT_MIN.

(** [a + b] on [int]. *)
Definition add (a b : Z) : Z := wrap (a + b).

End CInt.

(** ** Failure monad for undefined pointer accesses *)

Definition bind {A B : Type} (c : option A) (k : A -> option B) : option B :=
  match c with
  | Some a => k a
  | None => None
  end.

Notation "x <- c ;; k" := (bind c (fun x => k))
  (at level 61, c at next level, right associativity).

(** ** Nodes *)

(** [struct node { struct node *left; struct node *right; int data; }],
    seen through a [node *]: [NULL] or a cell. *)
Inductive node : Type :=
| NULL : node
| Node (left : node) (right : node) (data : Z) : node.

(** [p->data]; undefined on the null pointer. *)
Definition data_of (p : node) : option Z :=
  match p with
  | NULL => None
  | Node _ _ d => Some d
  end.

(** [newNode(data)] *)
Definition newNode (data : Z) : node := Node NULL NULL data.

(** ** The operations *)

Fixpoint insert (root : node) (data : Z) : node :=
  match root with
  | NULL => newNode data
  | Node l r d =>
      if data >? d then Node l (insert r data) d
      else if data <? d then Node (insert l data) r d
      else Node l r d
  end.

(** [getMax] reads [root->right] before any test: on [NULL] it fails. *)
Fixpoint getMax (root : node) : option node :=
  match root with
  | NULL => None
  | Node _ r _ =>
      match r with
      | NULL => Some root
      | Node _ _ _ => getMax r
      end
  end.

Fixpoint delete (root : node) (data : Z) : option node :=
  match root with
  | NULL => Some NULL
  | Node l r d =>
      if data >? d then
        r' <- delete r data ;; Some (Node l r' d)
      else if data <? d then
        l' <- delete l data ;; Some (Node l' r d)
      else if data =? d then
        match l, r with
        | NULL, NULL => Some NULL
        | NULL, Node _ _ _ => Some r
        | Node _ _ _, NULL => Some l
        | Node _ _ _, Node _ _ _ =>
            tmp <- getMax l ;;
            m <- data_of tmp ;;
            l' <- delete l m ;;
            Some (Node l' r m)
        end
      else Some (Node l r d)
  end.

Fixpoint find (root : node) (data : Z) : Z :=
  match root with
  | NULL => 0
  | Node l r d =>
      if data >? d then find r data
      else if data <? d then find l data
      else if data =? d then 1
      else 0
  end.

(** The two [+ 1] are additions on [int]. *)
Fixpoint height (root : node) : Z :=
  match root with
  | NULL => 0
  | Node l r _ =>
      let right_h := height r in
      let left_h := height l in
      if right_h >? left_h then CInt.add right_h 1 else CInt.add left_h 1
  end.

(** [inOrder] prints the keys; the model returns the printed sequence. *)
Fixpoint inOrder (root : node) : list Z :=
  match root with
  | NULL => []
  | Node l r d => inOrder l ++ d :: inOrder r
  end.

(** ** Instrumented copies, recording control flow *)

(** The five exits of the [if] chain in [find]. *)
Inductive find_branch : Type :=
| BrNull | BrGreater | BrLess | BrEqual | BrElse.

(** [find], returning the branches taken instead of the result. *)
Fixpoint find_trace (root : node) (data : Z) : list find_branch :=
  match root with
  | NULL => [BrNull]
  | Node l r d =>
      if data >? d then BrGreater :: find_trace r data
      else if data <? d then BrLess :: find_trace l data
      else if data =? d then [BrEqual]
      else [BrElse]
  end.

(** The value [find] returns at each exit. *)
Definition branch_result (b : find_branch) : option Z :=
  match b with
  | BrNull => Some 0
  | BrEqual => Some 1
  | BrElse => Some 0
  | BrGreater | BrLess => None
  end.

(** The pointers on which [getMax] is entered, outermost call first. *)
Fixpoint getMax_visited (root : node) : list node :=
  root ::
  match root with
  | Node _ (Node _ _ _ as r) _ => getMax_visited r
  | _ => []
  end.

(** The pointers on which [getMax] is entered during [delete(root, data)],
    nested calls of [delete] included. *)
Fixpoint delete_getMax_visited (root : node) (data : Z) : list node :=
  match root with
  | NULL => []
  | Node l r d =>
      if data >? d then delete_getMax_visited r data
      else if data <? d then delete_getMax_visited l data
      else if data =? d then
        match l, r with
        | Node _ _ _, Node _ _ _ =>
            getMax_visited l ++
            match getMax l with
            | Some (Node _ _ m) => delete_getMax_visited l m
            | _ => []
            end
        | _, _ => []
        end
      else []
  end.

(** ** Sequences of operations on one tree handle *)

Inductive operation : Type :=
| Insert (data : Z)
| Delete (data : Z).

Definition apply_op (root : node) (o : operation) : option node :=
  match o with
  | Insert data => Some (insert root data)
  | Delete data => delete root data
  end.

Fixpoint run (ops : list operation) (root : node) : option node :=
  match ops with
  | [] => Some root
  | o :: ops' => root' <- apply_op root o ;; run ops' root'
  end.

(** The tree obtained from the empty one by inserting [ks] in order. *)
Definition build (ks : list Z) : node := fold_left insert ks NULL.

(** ** Specification vocabulary *)

(** Strictly ascending sequence of keys. *)
Definition ascending (ks : list Z) : Prop := StronglySorted Z.lt ks.

(** [P] holds of every key stored under [t]. *)
Fixpoint all_keys (P : Z -> Prop) (t : node) : Prop :=
  match t with
  | NULL => True
  | Node l r d => P d /\ all_keys P l /\ all_keys P r
  end.

(** The ordering invariant of the data model: at every cell the keys of the
    left subtree are strictly smaller and those of the right subtree strictly
    greater than the cell's key. *)
Fixpoint bst (t : node) : Prop :=
  match t with
  | NULL => True
  | Node l r d =>
      all_keys (fun k => k < d) l /\ all_keys (fun k => d < k) r /\
      bst l /\ bst r
  end.

(** Executable version of [bst], for concrete trees. *)
Fixpoint all_keysb (p : Z -> bool) (t : node) : bool :=
  match t with
  | NULL => true
  | Node l r d => p d && all_keysb p l && all_keysb p r
  end.

Fixpoint bstb (t : node) : bool :=
  match t with
  | NULL => true
  | Node l r d =>
      all_keysb (fun k => k <? d) l && all_keysb (fun k => d <? k) r &&
      bstb l && bstb r
  end.

(** [right_descent t n]: [n] is reached from [t] by following [right] links
    only, each of them non-null. *)
Inductive right_descent : node -> node -> Prop :=
| rd_stop (t : node) : right_descent t t
| rd_step (l r : node) (d : Z) (n : node) :
    r <> NULL -> right_descent r n -> right_descent (Node l r d) n.

(** Number of cells of a tree. *)
Fixpoint count (t : node) : nat :=
  match t with
  | NULL => 0%nat
  | Node l r _ => S (count l + count r)
  end.

(** Height as the specification words it, over the mathematical integers. *)
Fixpoint height_spec (t : node) : Z :=
  match t with
  | NULL => 0
  | Node l r _ => 1 + Z.max (height_spec l) (height_spec r)
  end.

(** The list [ks] with every occurrence of [k] dropped. *)
Definition without (k : Z) (ks : list Z) : list Z :=
  filter (fun x => negb (x =? k)) ks.

(** [k] was inserted and not deleted afterwards. *)
Definition live (ops : list operation) (k : Z) : Prop :=
  exists pre post, ops = pre ++ Insert k :: post /\ ~ In (Delete k) post.

(** [k] was never inserted, or it was deleted and not inserted again
    afterwards. *)
Definition gone (ops : list operation) (k : Z) : Prop :=
  ~ In (Insert k) ops \/
  exists pre post, ops = pre ++ Delete k :: post /\ ~ In (Insert k) post.

(** [m] is the in-order predecessor of [d] among [ks]: the greatest key
    below [d]. *)
Definition predecessor (ks : list Z) (d m : Z) : Prop :=
  In m ks /\ m < d /\ forall x, In x ks -> x < d -> x <= m.

(** The tree of the scenarios: keys 5, 3, 8, 1, 4 inserted in this order. *)
Definition sample : node := build [5; 3; 8; 1; 4].

(** The tree without any left child whose keys are [ks], from the root
    down. *)
Fixpoint right_chain (ks : list Z) : node :=
  match ks with
  | [] => NULL
  | k :: ks' => Node NULL (right_chain ks') k
  end.

(** ** Teardown *)

(** [purge] calls [free] on the cells of the tree; the model returns the
    pointers passed to [free], in the order of the calls. *)
Fixpoint purge (root : node) : list node :=
  match root with
  | NULL => []
  | Node l r _ => purge l ++ purge r ++ [root]
  end.

(** ** Console: what the program writes and reads *)

Module Console.

Import Ascii String.
Local Open Scope string_scope.

(** The characters written as [\n] and [\t] in the C source. *)
Definition nl : string := String "010"%char "".
Definition tab : string := String "009"%char "".

(** The text [printf] produces for [%d]. *)
Definition dec (z : Z) : string :=
  DecimalString.NilZero.string_of_int (Z.to_int z).

(** The text written by [inOrder]. *)
Fixpoint inOrder_out (root : node) : string :=
  match root with
  | NULL => ""
  | Node l r d =>
      inOrder_out l ++ (tab ++ "[ " ++ dec d ++ " ]" ++ tab) ++ inOrder_out r
  end.

(** [for (int i = ...; i < space; i++) printf(" ");] from the value [i] on,
    [n] bounding the number of iterations still to run. *)
Fixpoint for_spaces (n : nat) (i space : Z) : string :=
  match n with
  | O => ""
  | S n' =>
      if (i <? space)%Z then " " ++ for_spaces n' (CInt.add i 1) space
      else ""
  end.

(** The loop started at [i = 10]; it runs [space - 10] times at most. *)
Definition indent (space : Z) : string :=
  for_spaces (Z.to_nat (space - 10)) 10 space.

Fixpoint printTreeHelper (root : node) (space : Z) : string :=
  match root with
  | NULL => ""
  | Node l r d =>
      let space := CInt.add space 10 in
      printTreeHelper r space ++
      nl ++ indent space ++ dec d ++ nl ++
      printTreeHelper l space
  end.

Definition printTree (root : node) : string :=
  match root with
  | NULL => "Tree is empty!" ++ nl
  | Node _ _ _ => printTreeHelper root 0
  end.

(** The variables of [main], what is left to read on the standard input
    (as the integers [scanf] will convert) and what was written so far. *)
Record state : Type := State {
  root : node;
  opt : Z;
  data : Z;
  stdin : list Z;
  stdout : string
}.

(** [scanf("%d", &var)]: the next integer, or [var] unchanged at the end
    of the input. *)
Definition scanf (input : list Z) (var : Z) : Z * list Z :=
  match input with
  | [] => (var, [])
  | x :: rest => (x, rest)
  end.

Definition menu : string :=
  nl ++ nl ++ "[1] Insert Node" ++ nl ++ "[2] Delete Node" ++ nl ++
  "[3] Find a Node" ++ nl ++ "[4] Get current Height" ++ nl ++
  "[5] Print Tree in Crescent Order" ++ nl ++ "[6] Print Tree" ++ nl ++
  "[0] Quit" ++ nl.

(** One pass through the body of the [while] loop of [main]; [None] when
    the pass runs into an undefined pointer access. *)
Definition iteration (s : state) : option state :=
  let out := stdout s ++ menu in
  let (opt, input) := scanf (stdin s) (opt s) in
  match opt with
  | 1 =>
      let out := out ++ "Enter the new node's value:" ++ nl in
      let (data, input) := scanf input (data s) in
      Some (State (insert (root s) data) opt data input out)
  | 2 =>
      let out := out ++ "Enter the value to be removed:" ++ nl in
      match root s with
      | Node _ _ _ =>
          let (data, input) := scanf input (data s) in
          root' <- delete (root s) data ;;
          Some (State root' opt data input out)
      | NULL =>
          Some (State (root s) opt (data s) input
                      (out ++ "Tree is already empty!" ++ nl))
      end
  | 3 =>
      let out := out ++ "Enter the searched value:" ++ nl in
      let (data, input) := scanf input (data s) in
      Some (State (root s) opt data input
                  (out ++ (if (find (root s) data =? 0)%Z
                           then "The value is not in the tree."
                           else "The value is in the tree.") ++ nl))
  | 4 =>
      Some (State (root s) opt (data s) input
                  (out ++ "Current height of the tree is: " ++
                   dec (height (root s)) ++ nl))
  | 5 =>
      Some (State (root s) opt (data s) input (out ++ inOrder_out (root s)))
  | 6 =>
      Some (State (root s) opt (data s) input (out ++ printTree (root s)))
  | _ =>
      Some (State (root s) opt (data s) input out)
  end.

(** How a run of [main] limited to [fuel] passes through the loop ends. *)
Inductive outcome : Type :=
| Exit (status : Z) (out : string) (freed : list node)
| Undefined
| Running (s : state).

(** [while (opt != 0) { ... } purge(root); return 0;] *)
Fixpoint main_loop (fuel : nat) (s : state) : outcome :=
  if (opt s =? 0)%Z then Exit 0 (stdout s) (purge (root s))
  else
    match fuel with
    | O => Running s
    | S fuel' =>
        match iteration s with
        | Some s' => main_loop fuel' s'
        | None => Undefined
        end
    end.

Definition main (fuel : nat) (input : list Z) : outcome :=
  main_loop fuel (State NULL (-1) 0 input "").

(** The integers a user types to have [o] carried out on the tree [t],
    following the prompts: on the empty tree option 2 asks for no value. *)
Definition typed (t : node) (o : operation) : list Z :=
  match o with
  | Insert k => [1; k]
  | Delete k =>
      match t with
      | NULL => [2]
      | Node _ _ _ => [2; k]
      end
  end.

Fixpoint session (t : node) (ops : list operation) : list Z :=
  match ops with
  | [] => []
  | o :: ops' =>
      (typed t o ++
       match apply_op t o with
       | Some t' => session t' ops'
       | None => []
       end)%list
  end.

(** What a pass through the loop may do to the tree. *)
Definition tree_step (t t' : node) : Prop :=
  t' = t \/ (exists k, t' = insert t k) \/ (exists k, delete t k = Some t').

(** [n] blanks. *)
Fixpoint spaces (n : nat) : string :=
  match n with
  | O => ""
  | S n' => " " ++ spaces n'
  end.

(** The texts of [ss], one after the other. *)
Definition join (ss : list string) : string := fold_right append "" ss.

(** What [inOrder] writes for one key. *)
Definition item (k : Z) : string := tab ++ "[ " ++ dec k ++ " ]" ++ tab.

(** What [printTree] writes for one cell: a cell at [depth] holding [k]. *)
Definition line (c : nat * Z) : string :=
  nl ++ spaces (10 * fst c) ++ dec (snd c) ++ nl.

(** The cells in the order [printTreeHelper] visits them, with their
    depth below the cell it was entered on (at depth [depth]). *)
Fixpoint visit (root : node) (depth : nat) : list (nat * Z) :=
  match root with
  | NULL => []
  | Node l r d => (visit r (S depth) ++ (depth, d) :: visit l (S depth))%list
  end.

End Console.

(** * Facts *)

(** ** [int] arithmetic *)

Lemma wrap_in_range (z : Z) : CInt.in_range z -> CInt.wrap z = z.
Proof.
  unfold CInt.in_range, CInt.wrap, CInt.INT_MIN, CInt.INT_MAX. intros H.
  rewrite Z.mod_small; lia.
Qed.

Lemma add_no_overflow (a b : Z) : CInt.in_range (a + b) -> CInt.add a b = a + b.
Proof. apply wrap_in_range. Qed.

(** ** Ascending lists *)

Section Ascending.

Lemma ascending_app (xs ys : list Z) (d : Z) :
  ascending (xs ++ d :: ys) <->
  ascending xs /\ ascending ys /\
  Forall (fun k => k < d) xs /\ Forall (fun k => d < k) ys.
Proof.
  unfold ascending. induction xs as [|x xs IH]; simpl.
  - split.
    + intros H. inversion H; subst. repeat split; auto. constructor.
    + intros (_ & Hys & _ & Hd). constructor; assumption.
  - split.
    + intros H. inversion H as [|? ? Hs Hf]; subst.
      apply IH in Hs. destruct Hs as (Hxs & Hys & Hlt & Hgt).
      rewrite Forall_app in Hf. destruct Hf as [Hf1 Hf2].
      inversion Hf2; subst.
      repeat split; auto.
      * constructor; assumption.
    + intros (Hxs & Hys & Hlt & Hgt).
      inversion Hxs; subst. inversion Hlt; subst.
      constructor.
      * apply IH. repeat split; assumption.
      * rewrite Forall_app. split; [assumption|].
        constructor; [assumption|].
        eapply Forall_impl; [|exact Hgt]. simpl. intros. lia.
Qed.

Lemma ascending_NoDup (xs : list Z) : ascending xs -> NoDup xs.
Proof.
  induction 1 as [|x xs Hs IH Hf]; constructor; auto.
  intros Hin. rewrite Forall_forall in Hf. specialize (Hf x Hin). lia.
Qed.

(** An ascending list is determined by the set of its elements. *)
Lemma ascending_ext (xs ys : list Z) :
  ascending xs -> ascending ys ->
  (forall k, In k xs <-> In k ys) -> xs = ys.
Proof.
  intros Hx. revert ys.
  induction Hx as [|x xs Hs IH Hf]; intros ys Hy Heq.
  - destruct ys as [|y ys]; [reflexivity|].
    exfalso. apply (proj2 (Heq y)). left; reflexivity.
  - destruct Hy as [|y ys Hys Hfy].
    + exfalso. apply (proj1 (Heq x)). left; reflexivity.
    + rewrite Forall_forall in Hf, Hfy.
      assert (x = y) as ->.
      { destruct (proj1 (Heq x) (or_introl eq_refl)) as [E|Hin]; [auto|].
        destruct (proj2 (Heq y) (or_introl eq_refl)) as [E|Hin']; [auto|].
        specialize (Hf _ Hin'). specialize (Hfy _ Hin). lia. }
      f_equal. apply IH; [assumption|].
      intros k. split; intros Hin.
      * destruct (proj1 (Heq k) (or_intror Hin)) as [E|]; [|assumption].
        subst. specialize (Hf _ Hin). lia.
      * destruct (proj2 (Heq k) (or_intror Hin)) as [E|]; [|assumption].
        subst. specialize (Hfy _ Hin). lia.
Qed.

Lemma without_In (k x : Z) (xs : list Z) :
  In x (without k xs) <-> In x xs /\ x <> k.
Proof.
  unfold without. rewrite filter_In.
  destruct (Z.eqb_spec x k); simpl; intuition congruence.
Qed.

Lemma without_absent (k : Z) (xs : list Z) :
  ~ In k xs -> without k xs = xs.
Proof.
  unfold without. induction xs as [|x xs IH]; simpl; intros Hn; [reflexivity|].
  destruct (Z.eqb_spec x k); simpl.
  - exfalso. apply Hn. left. assumption.
  - f_equal. apply IH. intros Hin. apply Hn. right. assumption.
Qed.

Lemma without_app (k : Z) (xs ys : list Z) :
  without k (xs ++ ys) = without k xs ++ without k ys.
Proof. apply filter_app. Qed.

Lemma ascending_without (k : Z) (xs : list Z) :
  ascending xs -> ascending (without k xs).
Proof.
  unfold ascending, without.
  induction 1 as [|x xs Hs IH Hf]; simpl; [constructor|].
  destruct (negb (x =? k)); [|assumption].
  constructor; [assumption|].
  rewrite Forall_forall in *. intros y Hy.
  apply filter_In in Hy. apply Hf, Hy.
Qed.

(** Dropping a key of an ascending list removes one position and keeps
    the others in place. *)
Lemma without_split (k : Z) (xs ys : list Z) :
  ascending (xs ++ k :: ys) -> without k (xs ++ k :: ys) = xs ++ ys.
Proof.
  intros H. apply ascending_app in H. destruct H as (_ & _ & Hlt & Hgt).
  rewrite without_app. change (k :: ys) with ([k] ++ ys).
  rewrite without_app. unfold without at 2. simpl.
  rewrite Z.eqb_refl. simpl.
  rewrite !without_absent; [reflexivity| |].
  - intros Hin. rewrite Forall_forall in Hgt. specialize (Hgt _ Hin). lia.
  - intros Hin. rewrite Forall_forall in Hlt. specialize (Hlt _ Hin). lia.
Qed.

End Ascending.

(** ** The ordering invariant and the in-order sequence *)

Lemma all_keys_Forall (P : Z -> Prop) (t : node) :
  all_keys P t <-> Forall P (inOrder t).
Proof.
  induction t as [|l IHl r IHr d]; simpl.
  - split; auto.
  - rewrite Forall_app, Forall_cons_iff, IHl, IHr. tauto.
Qed.

Lemma bst_ascending (t : node) : bst t <-> ascending (inOrder t).
Proof.
  induction t as [|l IHl r IHr d]; simpl.
  - split; [constructor|auto].
  - rewrite ascending_app, IHl, IHr, !all_keys_Forall. tauto.
Qed.

Lemma all_keysb_spec (p : Z -> bool) (t : node) :
  all_keysb p t = true <-> all_keys (fun k => p k = true) t.
Proof.
  induction t as [|l IHl r IHr d]; simpl.
  - tauto.
  - rewrite !andb_true_iff, IHl, IHr. tauto.
Qed.

Lemma all_keys_impl (P Q : Z -> Prop) (t : node) :
  (forall k, P k -> Q k) -> all_keys P t -> all_keys Q t.
Proof.
  intros HPQ. induction t as [|l IHl r IHr d]; simpl; [auto|].
  intros (Hd & Hl & Hr). auto.
Qed.

Lemma bstb_spec (t : node) : bstb t = true <-> bst t.
Proof.
  induction t as [|l IHl r IHr d]; simpl.
  - tauto.
  - rewrite !andb_true_iff, IHl, IHr, !all_keysb_spec.
    split; intros (((H1 & H2) & H3) & H4) || intros (H1 & H2 & H3 & H4);
      repeat split; try assumption;
      (eapply all_keys_impl; [|eassumption]; simpl; intros; lia).
Qed.

(** ** [insert] *)

Lemma insert_In (t : node) (k x : Z) :
  In x (inOrder (insert t k)) <-> x = k \/ In x (inOrder t).
Proof.
  induction t as [|l IHl r IHr d]; simpl.
  - intuition.
  - destruct (Z.gtb_spec k d); [|destruct (Z.ltb_spec k d)]; simpl;
      rewrite ?in_app_iff; simpl; rewrite ?in_app_iff, ?IHl, ?IHr.
    + tauto.
    + tauto.
    + assert (k = d) by lia. subst. intuition congruence.
Qed.

Lemma insert_all_keys (P : Z -> Prop) (t : node) (k : Z) :
  P k -> all_keys P t -> all_keys P (insert t k).
Proof.
  intros Hk. induction t as [|l IHl r IHr d]; simpl.
  - auto.
  - intros (Hd & Hl & Hr).
    destruct (k >? d); [|destruct (k <? d)]; simpl; auto.
Qed.

Lemma insert_bst (t : node) (k : Z) : bst t -> bst (insert t k).
Proof.
  induction t as [|l IHl r IHr d]; simpl.
  - auto.
  - intros (Hlt & Hgt & Hl & Hr).
    destruct (Z.gtb_spec k d); [|destruct (Z.ltb_spec k d)]; simpl.
    + repeat split; auto. apply insert_all_keys; [lia|assumption].
    + repeat split; auto. apply insert_all_keys; [lia|assumption].
    + auto.
Qed.

(** The search path of [k] ends on a cell holding [k]: nothing is written. *)
Lemma insert_found (t : node) (k : Z) : find t k = 1 -> insert t k = t.
Proof.
  induction t as [|l IHl r IHr d]; simpl.
  - discriminate.
  - destruct (k >? d); [|destruct (k <? d)]; intros H.
    + rewrite IHr; auto.
    + rewrite IHl; auto.
    + reflexivity.
Qed.

Lemma find_insert_same (t : node) (k : Z) : find (insert t k) k = 1.
Proof.
  induction t as [|l IHl r IHr d]; simpl.
  - rewrite Z.gtb_ltb, !Z.ltb_irrefl, Z.eqb_refl. reflexivity.
  - destruct (Z.gtb_spec k d) as [Hg|Hg];
      [|destruct (Z.ltb_spec k d) as [Hl|Hl]]; simpl.
    + destruct (Z.gtb_spec k d); [assumption|lia].
    + destruct (Z.gtb_spec k d); [lia|].
      destruct (Z.ltb_spec k d); [assumption|lia].
    + destruct (Z.gtb_spec k d); [lia|].
      destruct (Z.ltb_spec k d); [lia|].
      destruct (Z.eqb_spec k d); [reflexivity|lia].
Qed.

Lemma insert_idempotent (t : node) (k : Z) :
  insert (insert t k) k = insert t k.
Proof. apply insert_found, find_insert_same. Qed.

(** ** [find] *)

Lemma find_bool (t : node) (k : Z) : find t k = 0 \/ find t k = 1.
Proof.
  induction t as [|l IHl r IHr d]; simpl; auto.
  destruct (k >? d); [|destruct (k <? d)]; auto.
  destruct (k =? d); auto.
Qed.

Lemma find_In (t : node) (k : Z) :
  bst t -> (find t k = 1 <-> In k (inOrder t)).
Proof.
  induction t as [|l IHl r IHr d]; simpl.
  - intros _. split; [discriminate|contradiction].
  - intros (Hlt & Hgt & Hl & Hr).
    rewrite all_keys_Forall, Forall_forall in Hlt, Hgt.
    rewrite in_app_iff. simpl.
    destruct (Z.gtb_spec k d); [|destruct (Z.ltb_spec k d)].
    + rewrite (IHr Hr). split; [auto|].
      intros [Hin|[E|Hin]]; [specialize (Hlt _ Hin); lia|lia|assumption].
    + rewrite (IHl Hl). split; [auto|].
      intros [Hin|[E|Hin]]; [assumption|lia|specialize (Hgt _ Hin); lia].
    + destruct (Z.eqb_spec k d); [|lia]. subst. tauto.
Qed.

Lemma find_not_In (t : node) (k : Z) :
  bst t -> (find t k = 0 <-> ~ In k (inOrder t)).
Proof.
  intros Hb. rewrite <- (find_In t k Hb).
  destruct (find_bool t k) as [E|E]; rewrite E; split; intros; lia.
Qed.

(** ** [getMax] *)

Lemma getMax_defined (t : node) :
  t <> NULL ->
  exists l d, getMax t = Some (Node l NULL d) /\
              right_descent t (Node l NULL d) /\
              exists pre, inOrder t = pre ++ [d].
Proof.
  induction t as [|l IHl r IHr d]; [congruence|]. intros _.
  destruct r as [|rl rr rd].
  - exists l, d. simpl. split; [reflexivity|]. split; [constructor|].
    exists (inOrder l). reflexivity.
  - destruct IHr as (l' & d' & Hg & Hd & pre & Hpre); [discriminate|].
    exists l', d'. split; [exact Hg|]. split.
    + constructor; [discriminate|assumption].
    + exists (inOrder l ++ d :: pre).
      change (inOrder (Node l (Node rl rr rd) d))
        with (inOrder l ++ d :: inOrder (Node rl rr rd)).
      rewrite Hpre, <- app_assoc. reflexivity.
Qed.

Lemma getMax_None (t : node) : getMax t = None <-> t = NULL.
Proof.
  split.
  - intros H. destruct t as [|l r d]; [reflexivity|].
    destruct (getMax_defined (Node l r d)) as (? & ? & Hg & _); congruence.
  - intros ->. reflexivity.
Qed.

Lemma getMax_visited_nonnull (t : node) :
  t <> NULL -> Forall (fun p => p <> NULL) (getMax_visited t).
Proof.
  induction t as [|l IHl r IHr d]; [congruence|]. intros Hn.
  destruct r as [|rl rr rd]; simpl.
  - constructor; [assumption|constructor].
  - constructor; [assumption|]. apply IHr. discriminate.
Qed.

(** The last key of an ascending list is its greatest. *)
Lemma ascending_last (pre : list Z) (d : Z) :
  ascending (pre ++ [d]) -> Forall (fun k => k < d) pre.
Proof. intros H. apply ascending_app in H. tauto. Qed.

(** ** [delete] *)

(** The branch of [delete] taken on a cell with two children whose key is
    the one to delete. *)
Lemma delete_two_children (l r : node) (d : Z) :
  l <> NULL -> r <> NULL ->
  delete (Node l r d) d =
    (tmp <- getMax l ;; m <- data_of tmp ;; l' <- delete l m ;;
     Some (Node l' r m)).
Proof.
  intros Hl Hr. simpl.
  rewrite Z.gtb_ltb, Z.ltb_irrefl, Z.eqb_refl.
  destruct l; [congruence|]. destruct r; [congruence|]. reflexivity.
Qed.

Lemma delete_defined (t : node) (k : Z) : exists t', delete t k = Some t'.
Proof.
  revert k. induction t as [|l IHl r IHr d]; intros k.
  - exists NULL. reflexivity.
  - simpl.
    destruct (k >? d).
    { destruct (IHr k) as [r' ->]. simpl. eauto. }
    destruct (k <? d).
    { destruct (IHl k) as [l' ->]. simpl. eauto. }
    destruct (k =? d); [|eauto].
    destruct l as [|ll lr ld]; destruct r as [|rl rr rd]; eauto.
    destruct (getMax_defined (Node ll lr ld)) as (ml & m & -> & _);
      [discriminate|].
    cbn [bind data_of].
    destruct (IHl m) as [l' ->]. simpl. eauto.
Qed.

Lemma delete_visited_nonnull (t : node) (k : Z) :
  Forall (fun p => p <> NULL) (delete_getMax_visited t k).
Proof.
  revert k. induction t as [|l IHl r IHr d]; intros k; simpl.
  - constructor.
  - destruct (k >? d); [apply IHr|].
    destruct (k <? d); [apply IHl|].
    destruct (k =? d); [|constructor].
    destruct l as [|ll lr ld]; [constructor|].
    destruct r as [|rl rr rd]; [constructor|].
    apply Forall_app. split.
    + apply getMax_visited_nonnull. discriminate.
    + destruct (getMax (Node ll lr ld)) as [[|? ? m]|];
        [constructor|apply IHl|constructor].
Qed.

(** The search path of [k] ends on [NULL]: [delete] rebuilds what it read. *)
Lemma delete_not_found (t : node) (k : Z) :
  find t k = 0 -> delete t k = Some t.
Proof.
  induction t as [|l IHl r IHr d]; simpl.
  - reflexivity.
  - destruct (k >? d); [intros H; rewrite (IHr H); reflexivity|].
    destruct (k <? d); [intros H; rewrite (IHl H); reflexivity|].
    destruct (k =? d); [discriminate|reflexivity].
Qed.

Lemma delete_inOrder (t : node) (k : Z) :
  bst t ->
  exists t', delete t k = Some t' /\ inOrder t' = without k (inOrder t).
Proof.
  revert k. induction t as [|l IHl r IHr d]; intros k Hb.
  - exists NULL. split; reflexivity.
  - pose proof Hb as Hasc. apply bst_ascending in Hasc. cbn [inOrder] in Hasc.
    destruct Hb as (Hlt & Hgt & Hl & Hr).
    rewrite all_keys_Forall, Forall_forall in Hlt, Hgt.
    destruct (Z.lt_trichotomy k d) as [Hk|[Hk|Hk]].
    + (* left *)
      destruct (IHl k Hl) as (l' & Hd & Hin).
      exists (Node l' r d). split.
      * simpl. destruct (Z.gtb_spec k d); [lia|].
        destruct (Z.ltb_spec k d); [|lia]. rewrite Hd. reflexivity.
      * simpl. rewrite Hin.
        change (d :: inOrder r) with ([d] ++ inOrder r).
        rewrite !without_app.
        rewrite (without_absent k [d]) by (simpl; lia).
        rewrite (without_absent k (inOrder r)); [reflexivity|].
        intros Hi. specialize (Hgt _ Hi). lia.
    + (* the cell itself *)
      subst k. cbn [inOrder]. rewrite (without_split d _ _ Hasc).
      destruct l as [|ll lr ld].
      { destruct r as [|rl rr rd].
        - exists NULL. simpl.
          rewrite Z.gtb_ltb, Z.ltb_irrefl, Z.eqb_refl. auto.
        - exists (Node rl rr rd). simpl delete.
          rewrite Z.gtb_ltb, Z.ltb_irrefl, Z.eqb_refl. auto. }
      destruct r as [|rl rr rd].
      { exists (Node ll lr ld). simpl delete.
        rewrite Z.gtb_ltb, Z.ltb_irrefl, Z.eqb_refl.
        split; [reflexivity|]. simpl. rewrite app_nil_r. reflexivity. }
      rewrite delete_two_children by discriminate.
      destruct (getMax_defined (Node ll lr ld)) as (ml & m & -> & _ & pre & Hpre);
        [discriminate|].
      cbn [bind data_of].
      destruct (IHl m Hl) as (l' & -> & Hin).
      exists (Node l' (Node rl rr rd) m). split; [reflexivity|].
      cbn [bind inOrder] in *. rewrite Hin, Hpre.
      apply bst_ascending in Hl. cbn [inOrder] in Hl. rewrite Hpre in Hl.
      rewrite (without_split m pre [] Hl), app_nil_r, <- app_assoc.
      reflexivity.
    + (* right *)
      destruct (IHr k Hr) as (r' & Hd & Hin).
      exists (Node l r' d). split.
      * simpl. destruct (Z.gtb_spec k d); [|lia]. rewrite Hd. reflexivity.
      * simpl. rewrite Hin.
        change (d :: inOrder r) with ([d] ++ inOrder r).
        rewrite !without_app.
        rewrite (without_absent k [d]) by (simpl; lia).
        rewrite (without_absent k (inOrder l)); [reflexivity|].
        intros Hi. specialize (Hlt _ Hi). lia.
Qed.

Lemma delete_bst (t t' : node) (k : Z) :
  bst t -> delete t k = Some t' -> bst t'.
Proof.
  intros Hb Hd. destruct (delete_inOrder t k Hb) as (t'' & Hd' & Hin).
  rewrite Hd in Hd'. injection Hd' as <-.
  apply bst_ascending. rewrite Hin. apply ascending_without.
  apply bst_ascending. assumption.
Qed.

(** ** [height] *)

Lemma count_inOrder (t : node) : count t = length (inOrder t).
Proof.
  induction t as [|l IHl r IHr d]; simpl; [reflexivity|].
  rewrite length_app. simpl. lia.
Qed.

Lemma height_spec_bounds (t : node) :
  0 <= height_spec t <= Z.of_nat (count t) /\
  (t <> NULL -> 1 <= height_spec t).
Proof.
  induction t as [|l IHl r IHr d]; cbn [height_spec count].
  - split; [lia|congruence].
  - destruct IHl as [IHl _]. destruct IHr as [IHr _].
    rewrite Nat2Z.inj_succ, Nat2Z.inj_add.
    split; [|intros _]; lia.
Qed.

(** As long as the number of cells fits in an [int], no addition in
    [height] overflows and the result is the mathematical height. *)
Lemma height_no_overflow (t : node) :
  Z.of_nat (count t) <= CInt.INT_MAX -> height t = height_spec t.
Proof.
  induction t as [|l IHl r IHr d]; [reflexivity|].
  cbn [count]. rewrite Nat2Z.inj_succ, Nat2Z.inj_add. intros Hc.
  cbn [height height_spec]. rewrite IHl, IHr by lia.
  pose proof (height_spec_bounds l) as [Bl _].
  pose proof (height_spec_bounds r) as [Br _].
  destruct (Z.gtb_spec (height_spec r) (height_spec l));
    rewrite add_no_overflow; unfold CInt.in_range, CInt.INT_MIN, CInt.INT_MAX in *; lia.
Qed.

(** ** Sequences of operations *)

Lemma build_snoc (ks : list Z) (k : Z) :
  build (ks ++ [k]) = insert (build ks) k.
Proof. unfold build. rewrite fold_left_app. reflexivity. Qed.

Lemma build_bst (ks : list Z) : bst (build ks).
Proof.
  induction ks as [|k ks IH] using rev_ind.
  - exact I.
  - rewrite build_snoc. apply insert_bst, IH.
Qed.

Lemma build_In (ks : list Z) (x : Z) : In x (inOrder (build ks)) <-> In x ks.
Proof.
  induction ks as [|k ks IH] using rev_ind.
  - simpl. tauto.
  - rewrite build_snoc, insert_In, in_app_iff, IH. simpl. intuition.
Qed.

(** A tree built by insertions has one cell per distinct key inserted. *)
Lemma build_count (ks : list Z) :
  count (build ks) = length (nodup Z.eq_dec ks).
Proof.
  rewrite count_inOrder. apply Permutation_length, NoDup_Permutation.
  - apply ascending_NoDup, bst_ascending, build_bst.
  - apply NoDup_nodup.
  - intros x. rewrite build_In, nodup_In. tauto.
Qed.

Lemma run_app (ops1 ops2 : list operation) (t : node) :
  run (ops1 ++ ops2) t = (t' <- run ops1 t ;; run ops2 t').
Proof.
  revert t. induction ops1 as [|o ops1 IH]; intros t; simpl.
  - reflexivity.
  - destruct (apply_op t o) as [t1|]; simpl; [apply IH|reflexivity].
Qed.

Lemma apply_op_bst (t : node) (o : operation) :
  bst t -> exists t', apply_op t o = Some t' /\ bst t'.
Proof.
  intros Hb. destruct o as [k|k]; simpl.
  - exists (insert t k). split; [reflexivity|]. apply insert_bst, Hb.
  - destruct (delete_defined t k) as [t' Hd]. exists t'.
    split; [assumption|]. eapply delete_bst; eassumption.
Qed.

Lemma run_bst (ops : list operation) (t : node) :
  bst t -> exists t', run ops t = Some t' /\ bst t'.
Proof.
  revert t. induction ops as [|o ops IH]; intros t Hb; simpl.
  - eauto.
  - destruct (apply_op_bst t o Hb) as (t1 & -> & Hb1). simpl.
    apply IH, Hb1.
Qed.

(** Effect of one operation on the membership of a key. *)
Lemma apply_op_In (t t' : node) (o : operation) (x : Z) :
  bst t -> apply_op t o = Some t' ->
  (In x (inOrder t') <->
   match o with
   | Insert k => x = k \/ In x (inOrder t)
   | Delete k => In x (inOrder t) /\ x <> k
   end).
Proof.
  intros Hb Ha. destruct o as [k|k]; simpl in Ha.
  - injection Ha as <-. apply insert_In.
  - destruct (delete_inOrder t k Hb) as (t'' & Hd & Hin).
    rewrite Ha in Hd. injection Hd as <-.
    rewrite Hin. apply without_In.
Qed.

(** A key present stays present while it is not deleted. *)
Lemma run_keeps (ops : list operation) (t t' : node) (k : Z) :
  bst t -> run ops t = Some t' -> ~ In (Delete k) ops ->
  In k (inOrder t) -> In k (inOrder t').
Proof.
  revert t. induction ops as [|o ops IH]; intros t Hb Hr Hn Hin; simpl in Hr.
  - injection Hr as <-. assumption.
  - destruct (apply_op_bst t o Hb) as (t1 & Ha & Hb1).
    rewrite Ha in Hr. simpl in Hr.
    apply (IH t1 Hb1 Hr).
    + intros H. apply Hn. right. assumption.
    + apply (apply_op_In t t1 o k Hb Ha).
      destruct o as [j|j]; [right; assumption|].
      split; [assumption|]. intros ->. apply Hn. left. reflexivity.
Qed.

(** A key absent stays absent while it is not inserted. *)
Lemma run_keeps_out (ops : list operation) (t t' : node) (k : Z) :
  bst t -> run ops t = Some t' -> ~ In (Insert k) ops ->
  ~ In k (inOrder t) -> ~ In k (inOrder t').
Proof.
  revert t. induction ops as [|o ops IH]; intros t Hb Hr Hn Hin; simpl in Hr.
  - injection Hr as <-. assumption.
  - destruct (apply_op_bst t o Hb) as (t1 & Ha & Hb1).
    rewrite Ha in Hr. simpl in Hr.
    apply (IH t1 Hb1 Hr).
    + intros H. apply Hn. right. assumption.
    + rewrite (apply_op_In t t1 o k Hb Ha).
      destruct o as [j|j]; [|tauto].
      intros [->|H]; [|contradiction]. apply Hn. left. reflexivity.
Qed.

(** * The properties *)

(** C1. Every finite sequence of insert and delete operations started on
    the empty tree runs without failure, and after each operation of the
    sequence (that is, after every prefix [firstn n ops]) the in-order
    traversal is a strictly ascending sequence of keys. *)
Theorem inOrder_ascending_after_operations (ops : list operation) (n : nat) :
  exists t,
    run (firstn n ops) NULL = Some t /\ bst t /\ ascending (inOrder t).
Proof.
  destruct (run_bst (firstn n ops) NULL I) as (t & Hr & Hb).
  exists t. split; [assumption|]. split; [assumption|].
  apply bst_ascending, Hb.
Qed.

(** C2. On the tree reached by a sequence of operations from the empty
    tree, [find] returns 1 for a key that was inserted and not deleted
    afterwards, and 0 for a key that was never inserted or that was deleted
    and not inserted again; on the tree built from 5, 3, 8, 1, 4 it returns
    1 for 4 and 0 for 9. *)
Theorem find_after_operations (ops : list operation) (k : Z) :
  exists t, run ops NULL = Some t /\
            (live ops k -> find t k = 1) /\
            (gone ops k -> find t k = 0) /\
            find sample 4 = 1 /\ find sample 9 = 0.
Proof.
  destruct (run_bst ops NULL I) as (t & Hr & Hb).
  exists t. split; [assumption|]. repeat split.
  - intros (pre & post & -> & Hn).
    rewrite run_app in Hr.
    destruct (run_bst pre NULL I) as (t1 & Hr1 & Hb1).
    rewrite Hr1 in Hr. simpl in Hr.
    apply find_In; [assumption|].
    apply (run_keeps post (insert t1 k) t k); auto using insert_bst.
    apply insert_In. left. reflexivity.
  - intros [Hn|(pre & post & -> & Hn)].
    + apply find_not_In; [assumption|].
      apply (run_keeps_out ops NULL t k I Hr Hn). simpl. tauto.
    + rewrite run_app in Hr.
      destruct (run_bst pre NULL I) as (t1 & Hr1 & Hb1).
      rewrite Hr1 in Hr. cbn [bind run] in Hr.
      destruct (apply_op_bst t1 (Delete k) Hb1) as (t2 & Ha & Hb2).
      rewrite Ha in Hr. cbn [bind] in Hr.
      apply find_not_In; [assumption|].
      apply (run_keeps_out post t2 t k Hb2 Hr Hn).
      rewrite (apply_op_In t1 t2 (Delete k) k Hb1 Ha). tauto.
Qed.

Lemma find_after_operations_witness :
  exists t, run [Insert 5; Insert 3; Delete 5] NULL = Some t /\
            find t 3 = 1 /\ find t 5 = 0 /\ find t 7 = 0.
Proof.
  destruct (find_after_operations [Insert 5; Insert 3; Delete 5] 3)
    as (t & Hr & Hlive & _).
  destruct (find_after_operations [Insert 5; Insert 3; Delete 5] 5)
    as (t5 & Hr5 & _ & Hgone5 & _).
  destruct (find_after_operations [Insert 5; Insert 3; Delete 5] 7)
    as (t7 & Hr7 & _ & Hgone7 & _).
  rewrite Hr in Hr5, Hr7. injection Hr5 as <-. injection Hr7 as <-.
  exists t. split; [exact Hr|]. split; [|split].
  - apply Hlive. exists [Insert 5], [Delete 5]. split; [reflexivity|].
    simpl. intros [E|[]]. discriminate.
  - apply Hgone5. right. exists [Insert 5; Insert 3], []. split; [reflexivity|].
    simpl. tauto.
  - apply Hgone7. left. simpl. intros [E|[E|[E|[]]]]; discriminate.
Defined.

(** C3. On a tree satisfying the ordering invariant, [delete] returns a
    tree that satisfies it again.  If the key is present, exactly its
    position disappears from the in-order sequence, the keys before and
    after it keeping their places, so the key set loses exactly that key.
    If the key is absent, the tree, and with it the in-order sequence, is
    unchanged.  Deleting the leaf key 1 from the tree built from
    5, 3, 8, 1, 4 leaves the in-order sequence 3, 4, 5, 8. *)
Theorem delete_correct (t : node) (k : Z) :
  bst t ->
  exists t',
    delete t k = Some t' /\ bst t' /\
    (In k (inOrder t) ->
       (exists pre post,
          inOrder t = pre ++ k :: post /\ inOrder t' = pre ++ post) /\
       (forall x, In x (inOrder t') <-> In x (inOrder t) /\ x <> k)) /\
    (~ In k (inOrder t) -> t' = t /\ inOrder t' = inOrder t) /\
    option_map inOrder (delete sample 1) = Some [3; 4; 5; 8].
Proof.
  intros Hb. destruct (delete_inOrder t k Hb) as (t' & Hd & Hin).
  exists t'. split; [assumption|].
  split; [eapply delete_bst; eassumption|].
  split; [|split; [|reflexivity]].
  - intros Hk. split.
    + destruct (in_split _ _ Hk) as (pre & post & E).
      exists pre, post. split; [assumption|].
      rewrite Hin, E. apply without_split. rewrite <- E.
      apply bst_ascending, Hb.
    + intros x. rewrite Hin. apply without_In.
  - intros Hk. apply (find_not_In t k Hb) in Hk.
    rewrite (delete_not_found t k Hk) in Hd. injection Hd as <-.
    split; reflexivity.
Qed.

Lemma delete_correct_witness :
  exists t',
    delete (Node (Node NULL NULL 3) (Node NULL NULL 8) 5) 5 = Some t' /\
    inOrder t' = [3; 8].
Proof.
  destruct (delete_correct (Node (Node NULL NULL 3) (Node NULL NULL 8) 5) 5)
    as (t' & Hd & _ & Hin & _).
  - apply bstb_spec. reflexivity.
  - exists t'. split; [exact Hd|].
    destruct Hin as [(pre & post & E1 & E2) _].
    + simpl. right. left. reflexivity.
    + vm_compute in Hd. injection Hd as <-. reflexivity.
Defined.

(** C4. Inserting a key that a tree satisfying the ordering invariant
    already holds returns the very same tree, hence the same in-order
    sequence and key set; and inserting a key twice gives the tree that
    inserting it once gives. *)
Theorem insert_present_noop (t : node) (k : Z) :
  bst t ->
  (In k (inOrder t) ->
     insert t k = t /\ inOrder (insert t k) = inOrder t) /\
  insert (insert t k) k = insert t k /\
  inOrder (insert (insert t k) k) = inOrder (insert t k).
Proof.
  intros Hb. split.
  - intros Hk. apply (find_In t k Hb) in Hk.
    rewrite (insert_found t k Hk). split; reflexivity.
  - rewrite insert_idempotent. split; reflexivity.
Qed.

Lemma insert_present_noop_witness :
  insert (insert sample 4) 4 = insert sample 4 /\ insert sample 4 = sample.
Proof.
  destruct (insert_present_noop sample 4) as (Hp & Hi & _).
  - apply bstb_spec. reflexivity.
  - split; [exact Hi|]. apply Hp. vm_compute. tauto.
Defined.

(** C5. On a cell with two children that holds the key to delete, in a
    tree satisfying the ordering invariant, [delete] obtains from [getMax]
    the cell reached from the left child by following right links; the key
    [m] of that cell is the greatest key of the left subtree and the
    in-order predecessor of the deleted key; the result is the cell with
    its key replaced by [m] and its left subtree replaced by the result of
    deleting [m] from it, the right subtree being untouched.  Deleting 5
    from the tree built from 5, 3, 8, 1, 4 leaves a root holding 4 and the
    in-order sequence 1, 3, 4, 8. *)
Theorem delete_two_children_predecessor (l r : node) (d : Z) :
  bst (Node l r d) -> l <> NULL -> r <> NULL ->
  (exists tmp m l',
     getMax l = Some tmp /\ right_descent l tmp /\ data_of tmp = Some m /\
     Forall (fun k => k <= m) (inOrder l) /\
     predecessor (inOrder (Node l r d)) d m /\
     delete l m = Some l' /\
     inOrder l' = without m (inOrder l) /\
     delete (Node l r d) d = Some (Node l' r m)) /\
  (exists t', delete sample 5 = Some t' /\
              data_of t' = Some 4 /\ inOrder t' = [1; 3; 4; 8]).
Proof.
  intros Hb Hl Hr. split.
  2:{ eexists. split; [vm_compute; reflexivity|]. split; reflexivity. }
  destruct (getMax_defined l Hl) as (ml & m & Hg & Hrd & pre & Hpre).
  pose proof Hb as (Hlt & Hgt & Hbl & Hbr).
  rewrite all_keys_Forall, Forall_forall in Hlt, Hgt.
  destruct (delete_inOrder l m Hbl) as (l' & Hd & Hin).
  assert (Hmax : Forall (fun k => k <= m) (inOrder l)).
  { apply bst_ascending in Hbl. rewrite Hpre in *.
    apply ascending_last in Hbl. apply Forall_app. split.
    - eapply Forall_impl; [|exact Hbl]. simpl. intros. lia.
    - constructor; [lia|constructor]. }
  assert (Hm : In m (inOrder l)).
  { rewrite Hpre. apply in_or_app. right. left. reflexivity. }
  exists (Node ml NULL m), m, l'.
  repeat split; try assumption.
  - cbn [inOrder]. apply in_or_app. left. assumption.
  - apply Hlt, Hm.
  - cbn [inOrder]. intros x Hx Hxd. apply in_app_or in Hx.
    rewrite Forall_forall in Hmax.
    destruct Hx as [Hx|[Hx|Hx]]; [apply Hmax, Hx|lia|].
    specialize (Hgt _ Hx). lia.
  - rewrite (delete_two_children l r d Hl Hr), Hg. cbn [bind data_of].
    rewrite Hd. reflexivity.
Qed.

Lemma delete_two_children_predecessor_witness :
  delete (Node (Node NULL NULL 3) (Node NULL NULL 8) 5) 5 =
    Some (Node NULL (Node NULL NULL 8) 3).
Proof.
  destruct (delete_two_children_predecessor
              (Node NULL NULL 3) (Node NULL NULL 8) 5)
    as [(tmp & m & l' & Hg & _ & Hm & _ & _ & Hd & _ & Hdel) _].
  - apply bstb_spec. reflexivity.
  - discriminate.
  - discriminate.
  - vm_compute in Hg. injection Hg as <-.
    vm_compute in Hm. injection Hm as <-.
    vm_compute in Hd. injection Hd as <-.
    exact Hdel.
Defined.

(** C6. [height] returns 0 on the empty tree and 1 on a single cell.  For a
    tree whose number of cells fits in an [int] (so that no [int] addition
    in [height] overflows) it returns 1 + max(height(left), height(right))
    on a cell, and, if the tree is not empty, a value between 1 and the
    number [n] of keys it holds; for a tree built by insertions [n] is the
    number of distinct keys inserted.  The tree built from 5, 3, 8, 1, 4 has
    in-order sequence 1, 3, 4, 5, 8 and height 3. *)
Theorem height_correct (t : node) :
  Z.of_nat (count t) <= CInt.INT_MAX ->
  height NULL = 0 /\
  (forall d, height (Node NULL NULL d) = 1) /\
  (forall l r d, t = Node l r d ->
     height t = 1 + Z.max (height l) (height r)) /\
  (t <> NULL -> 1 <= height t <= Z.of_nat (count t)) /\
  count t = length (inOrder t) /\
  (forall ks, t = build ks -> count t = length (nodup Z.eq_dec ks)) /\
  inOrder sample = [1; 3; 4; 5; 8] /\ height sample = 3.
Proof.
  intros Hc.
  split; [reflexivity|]. split; [reflexivity|].
  split; [|split; [|split; [|split; [|split; reflexivity]]]].
  - intros l r d ->. cbn [count] in Hc.
    rewrite Nat2Z.inj_succ, Nat2Z.inj_add in Hc.
    rewrite !height_no_overflow by (cbn [count]; lia). reflexivity.
  - intros Hn. rewrite (height_no_overflow t Hc).
    pose proof (height_spec_bounds t) as [B1 B2]. specialize (B2 Hn). lia.
  - apply count_inOrder.
  - intros ks ->. apply build_count.
Qed.

Lemma height_correct_witness :
  1 <= height (Node (Node NULL NULL 1) NULL 2) <= 2.
Proof.
  destruct (height_correct (Node (Node NULL NULL 1) NULL 2))
    as (_ & _ & _ & Hb & _).
  - vm_compute. discriminate.
  - apply Hb. discriminate.
Defined.

(** C7. On a non-null pointer [getMax] succeeds and returns a cell without
    right child, reached from its argument by following right links only;
    when the tree satisfies the ordering invariant, the key of that cell
    occurs in the tree and no key of the tree is greater. *)
Theorem getMax_rightmost (t : node) :
  t <> NULL ->
  exists l d,
    getMax t = Some (Node l NULL d) /\
    right_descent t (Node l NULL d) /\
    (bst t -> In d (inOrder t) /\ Forall (fun k => k <= d) (inOrder t)).
Proof.
  intros Hn. destruct (getMax_defined t Hn) as (l & d & Hg & Hrd & pre & Hpre).
  exists l, d. split; [assumption|]. split; [assumption|].
  intros Hb. apply bst_ascending in Hb. rewrite Hpre in *.
  apply ascending_last in Hb. split.
  - apply in_or_app. right. left. reflexivity.
  - apply Forall_app. split.
    + eapply Forall_impl; [|exact Hb]. simpl. intros. lia.
    + constructor; [lia|constructor].
Qed.

Lemma getMax_rightmost_witness :
  exists l d, getMax sample = Some (Node l NULL d) /\
              Forall (fun k => k <= d) (inOrder sample).
Proof.
  destruct (getMax_rightmost sample) as (l & d & Hg & _ & Hmax).
  - discriminate.
  - exists l, d. split; [exact Hg|]. apply Hmax, bstb_spec. reflexivity.
Defined.

Lemma find_trace_nonempty (root : node) (data : Z) :
  find_trace root data <> [].
Proof.
  destruct root as [|l r d]; simpl; [discriminate|].
  destruct (data >? d); [discriminate|].
  destruct (data <? d); [discriminate|].
  destruct (data =? d); discriminate.
Qed.

Lemma last_cons_nonempty {A : Type} (x d : A) (xs : list A) :
  xs <> [] -> last (x :: xs) d = last xs d.
Proof. destruct xs; [congruence|reflexivity]. Qed.

(** C8. The trailing [else] of [find] is never taken: whatever the tree and
    the key, the branches [find] goes through are the null test, the
    greater-than branch, the less-than branch and the equality branch, and
    the value returned is the one of the last of them. *)
Theorem find_else_unreachable (root : node) (data : Z) :
  ~ In BrElse (find_trace root data) /\
  branch_result (last (find_trace root data) BrElse) = Some (find root data).
Proof.
  induction root as [|l IHl r IHr d]; cbn [find_trace find].
  - split; [|reflexivity]. intros [E|[]]. discriminate.
  - destruct (Z.gtb_spec data d); [|destruct (Z.ltb_spec data d)].
    + destruct IHr as [Hn Hl]. split.
      * intros [E|Hin]; [discriminate|auto].
      * rewrite last_cons_nonempty; auto using find_trace_nonempty.
    + destruct IHl as [Hn Hl]. split.
      * intros [E|Hin]; [discriminate|auto].
      * rewrite last_cons_nonempty; auto using find_trace_nonempty.
    + destruct (Z.eqb_spec data d); [|lia]. split; [|reflexivity].
      intros [E|[]]. discriminate.
Qed.

(** C9. [delete] never fails: the only pointers on which it enters
    [getMax] are the non-null left child of a cell with two children and,
    from there, non-null right children, so the undefined dereference in
    [getMax] is not reached, whatever the tree and the key. *)
Theorem delete_getMax_safe (root : node) (data : Z) :
  (exists t', delete root data = Some t') /\
  Forall (fun p => p <> NULL /\ getMax p <> None)
         (delete_getMax_visited root data).
Proof.
  split; [apply delete_defined|].
  eapply Forall_impl; [|apply delete_visited_nonnull].
  simpl. intros p Hp. split; [assumption|].
  intros Hg. apply getMax_None in Hg. contradiction.
Qed.

(** C10. On a tree satisfying the ordering invariant, inserting two keys in
    either order gives the same in-order sequence. *)
Theorem insert_order_irrelevant (t : node) (a b : Z) :
  bst t ->
  inOrder (insert (insert t a) b) = inOrder (insert (insert t b) a).
Proof.
  intros Hb. apply ascending_ext.
  - apply bst_ascending. auto using insert_bst.
  - apply bst_ascending. auto using insert_bst.
  - intros k. rewrite !insert_In. tauto.
Qed.

Lemma insert_order_irrelevant_witness :
  inOrder (insert (insert sample 7) 2) = inOrder (insert (insert sample 2) 7).
Proof.
  apply (insert_order_irrelevant sample 7 2), bstb_spec. reflexivity.
Defined.

(** * Further properties of the operations *)

(** ** [insert] *)

(** X1. [insert] creates one cell when the search for the key fails and
    none when it succeeds, whatever the shape of the tree. *)
Theorem insert_allocates (t : node) (k : Z) :
  count (insert t k) = if find t k =? 1 then count t else S (count t).
Proof.
  induction t as [|l IHl r IHr d]; simpl.
  - reflexivity.
  - destruct (Z.gtb_spec k d); [|destruct (Z.ltb_spec k d)]; simpl.
    + rewrite IHr. destruct (find r k =? 1); lia.
    + rewrite IHl. destruct (find l k =? 1); lia.
    + destruct (Z.eqb_spec k d); [reflexivity|lia].
Qed.

(** X2. After [insert], [find] answers 1 for the inserted key and answers
    for every other key what it answered before, whatever the shape of the
    tree. *)
Theorem find_insert (t : node) (k x : Z) :
  find (insert t k) x = if x =? k then 1 else find t x.
Proof.
  induction t as [|l IHl r IHr d]; simpl.
  - destruct (Z.gtb_spec x k); [|destruct (Z.ltb_spec x k)];
      destruct (Z.eqb_spec x k); try lia; reflexivity.
  - destruct (Z.gtb_spec k d); [|destruct (Z.ltb_spec k d)]; simpl;
      destruct (Z.gtb_spec x d); try destruct (Z.ltb_spec x d);
      rewrite ?IHl, ?IHr;
      destruct (Z.eqb_spec x k); destruct (Z.eqb_spec x d);
      try lia; try reflexivity.
Qed.

(** X3. The new key takes its place in the in-order sequence and the other
    keys keep theirs: when the search for [k] fails, the sequence of
    [insert t k] is that of [t] with [k] put in at one position, and in a
    tree satisfying the ordering invariant the keys before that position
    are smaller and the keys after it greater. *)
Theorem insert_position (t : node) (k : Z) :
  find t k = 0 ->
  exists pre post,
    inOrder t = pre ++ post /\
    inOrder (insert t k) = pre ++ k :: post /\
    (bst t ->
     Forall (fun x => x < k) pre /\ Forall (fun x => k < x) post).
Proof.
  intros Hf.
  assert (E : exists pre post,
             inOrder t = pre ++ post /\
             inOrder (insert t k) = pre ++ k :: post).
  { induction t as [|l IHl r IHr d]; simpl in *.
    - exists [], []. split; reflexivity.
    - destruct (Z.gtb_spec k d); [|destruct (Z.ltb_spec k d)].
      + destruct (IHr Hf) as (pre & post & E1 & E2).
        exists (inOrder l ++ d :: pre), post. simpl.
        rewrite E1, E2, <- !app_assoc. split; reflexivity.
      + destruct (IHl Hf) as (pre & post & E1 & E2).
        exists pre, (post ++ d :: inOrder r). simpl.
        rewrite E1, E2, <- !app_assoc. split; reflexivity.
      + destruct (Z.eqb_spec k d); [discriminate|lia]. }
  destruct E as (pre & post & E1 & E2).
  exists pre, post. split; [assumption|]. split; [assumption|].
  intros Hb. apply (insert_bst t k), bst_ascending in Hb.
  rewrite E2 in Hb. apply ascending_app in Hb. tauto.
Qed.

Lemma insert_position_witness :
  exists pre post,
    inOrder sample = pre ++ post /\
    inOrder (insert sample 7) = pre ++ 7 :: post /\
    Forall (fun x => x < 7) pre.
Proof.
  destruct (insert_position sample 7) as (pre & post & E1 & E2 & Hb).
  - reflexivity.
  - exists pre, post. split; [exact E1|]. split; [exact E2|].
    apply Hb, bstb_spec. reflexivity.
Defined.

(** ** [delete] *)

(** X4. Deleting a key right after an insertion that created its cell gives
    back the tree as it was before the insertion, cell for cell, whatever
    the shape of the tree. *)
Theorem delete_insert (t : node) (k : Z) :
  find t k = 0 -> delete (insert t k) k = Some t.
Proof.
  induction t as [|l IHl r IHr d]; simpl.
  - intros _. rewrite Z.gtb_ltb, Z.ltb_irrefl, Z.eqb_refl. reflexivity.
  - destruct (Z.gtb_spec k d) as [Hg|Hg];
      [|destruct (Z.ltb_spec k d) as [Hl|Hl]]; intros Hf; simpl.
    + destruct (Z.gtb_spec k d); [|lia]. rewrite (IHr Hf). reflexivity.
    + destruct (Z.gtb_spec k d); [lia|].
      destruct (Z.ltb_spec k d); [|lia]. rewrite (IHl Hf). reflexivity.
    + destruct (Z.eqb_spec k d); [discriminate|lia].
Qed.

Lemma delete_insert_witness : delete (insert sample 7) 7 = Some sample.
Proof. apply (delete_insert sample 7). reflexivity. Defined.

(** X5. In a tree satisfying the ordering invariant, after [delete] the
    deleted key is not found any more and every other key is found exactly
    when it was found before. *)
Theorem find_delete (t t' : node) (k x : Z) :
  bst t -> delete t k = Some t' ->
  find t' x = if x =? k then 0 else find t x.
Proof.
  intros Hb Hd.
  pose proof (delete_bst t t' k Hb Hd) as Hb'.
  destruct (delete_inOrder t k Hb) as (t'' & Hd' & Hin).
  rewrite Hd in Hd'. injection Hd' as <-.
  pose proof (find_In t' x Hb') as H1. rewrite Hin, without_In in H1.
  pose proof (find_In t x Hb) as H2.
  destruct (find_bool t' x) as [E'|E']; destruct (find_bool t x) as [E|E];
    rewrite E', ?E in *; destruct (Z.eqb_spec x k); try reflexivity;
    exfalso.
  - assert (0 = 1) by (apply H1; split; [apply H2; reflexivity|assumption]).
    discriminate.
  - assert (In x (inOrder t) /\ x <> k) as [_ Hn] by (apply H1; reflexivity).
    contradiction.
  - assert (In x (inOrder t) /\ x <> k) as [Hi _] by (apply H1; reflexivity).
    apply H2 in Hi. discriminate.
  - assert (In x (inOrder t) /\ x <> k) as [_ Hn] by (apply H1; reflexivity).
    contradiction.
Qed.

Lemma find_delete_witness :
  exists t', delete sample 5 = Some t' /\ find t' 5 = 0 /\ find t' 4 = 1.
Proof.
  exists (Node (Node (Node NULL NULL 1) NULL 3) (Node NULL NULL 8) 4).
  split; [reflexivity|]. split.
  - apply (find_delete sample _ 5 5); [apply bstb_spec|]; reflexivity.
  - apply (find_delete sample _ 5 4); [apply bstb_spec|]; reflexivity.
Defined.

(** X6. In a tree satisfying the ordering invariant, deleting the same key
    a second time changes nothing: the second call returns the tree the
    first one returned. *)
Theorem delete_twice (t t' : node) (k : Z) :
  bst t -> delete t k = Some t' -> delete t' k = Some t'.
Proof.
  intros Hb Hd. apply delete_not_found.
  apply find_not_In; [eapply delete_bst; eassumption|].
  destruct (delete_inOrder t k Hb) as (t'' & Hd' & Hin).
  rewrite Hd in Hd'. injection Hd' as <-.
  rewrite Hin, without_In. tauto.
Qed.

Lemma delete_twice_witness :
  exists t', delete sample 3 = Some t' /\ delete t' 3 = Some t'.
Proof.
  exists (Node (Node NULL (Node NULL NULL 4) 1) (Node NULL NULL 8) 5).
  split; [reflexivity|].
  apply (delete_twice sample _ 3); [apply bstb_spec|]; reflexivity.
Defined.

(** X7. In a tree satisfying the ordering invariant, [delete] releases
    exactly one cell when the key is found and none when it is not: the
    number of cells goes down by the value [find] returns for the key. *)
Theorem delete_releases (t t' : node) (k : Z) :
  bst t -> delete t k = Some t' ->
  Z.of_nat (count t') = Z.of_nat (count t) - find t k.
Proof.
  intros Hb Hd.
  destruct (delete_inOrder t k Hb) as (t'' & Hd' & Hin).
  rewrite Hd in Hd'. injection Hd' as <-.
  rewrite !count_inOrder, Hin.
  destruct (find_bool t k) as [E|E]; rewrite E.
  - apply find_not_In in E; [|assumption].
    rewrite (without_absent k _ E). lia.
  - apply find_In in E; [|assumption].
    destruct (in_split _ _ E) as (pre & post & Es).
    apply bst_ascending in Hb. rewrite Es in *.
    rewrite (without_split k pre post Hb), !length_app. simpl. lia.
Qed.

Lemma delete_releases_witness :
  exists t', delete sample 5 = Some t' /\ count t' = 4%nat.
Proof.
  exists (Node (Node (Node NULL NULL 1) NULL 3) (Node NULL NULL 8) 4).
  split; [reflexivity|].
  apply Nat2Z.inj.
  rewrite (delete_releases sample _ 5); [|apply bstb_spec|]; reflexivity.
Defined.

(** ** [height] and the shape of the tree *)

Lemma insert_count_le (t : node) (k : Z) :
  (count t <= count (insert t k) <= S (count t))%nat.
Proof.
  induction t as [|l IHl r IHr d]; simpl.
  - lia.
  - destruct (k >? d); [|destruct (k <? d)]; simpl; lia.
Qed.

Lemma insert_height_spec (t : node) (k : Z) :
  height_spec t <= height_spec (insert t k) <= height_spec t + 1.
Proof.
  induction t as [|l IHl r IHr d]; cbn [insert height_spec newNode].
  - lia.
  - destruct (k >? d); [|destruct (k <? d)]; cbn [height_spec]; lia.
Qed.

Lemma delete_shrinks (t t' : node) (k : Z) :
  delete t k = Some t' ->
  height_spec t' <= height_spec t /\ (count t' <= count t)%nat.
Proof.
  revert k t'. induction t as [|l IHl r IHr d]; intros k t'.
  - simpl. intros E. injection E as <-. simpl. lia.
  - cbn [delete].
    destruct (k >? d).
    { destruct (delete r k) as [r'|] eqn:Er; [|discriminate].
      cbn [bind]. intros E. injection E as <-.
      destruct (IHr k r' Er). cbn [height_spec count]. lia. }
    destruct (k <? d).
    { destruct (delete l k) as [l'|] eqn:El; [|discriminate].
      cbn [bind]. intros E. injection E as <-.
      destruct (IHl k l' El). cbn [height_spec count]. lia. }
    destruct (k =? d).
    2:{ intros E. injection E as <-. lia. }
    pose proof (height_spec_bounds l) as [Bl _].
    pose proof (height_spec_bounds r) as [Br _].
    destruct l as [|ll lr ld]; destruct r as [|rl rr rd];
      try (intros E; injection E as <-; cbn [height_spec count] in *; lia).
    destruct (getMax (Node ll lr ld)) as [tmp|]; [|discriminate].
    cbn [bind]. destruct (data_of tmp) as [m|]; [|discriminate].
    cbn [bind]. destruct (delete (Node ll lr ld) m) as [l'|] eqn:El;
      [|discriminate].
    cbn [bind]. intros E. injection E as <-.
    destruct (IHl m l' El). cbn [height_spec count] in *. lia.
Qed.

(** X8. An insertion raises the height by one at most and never lowers it,
    as long as the number of cells stays within [int]. *)
Theorem height_insert (t : node) (k : Z) :
  Z.of_nat (count t) < CInt.INT_MAX ->
  height t <= height (insert t k) <= height t + 1.
Proof.
  intros Hc. pose proof (insert_count_le t k).
  rewrite !height_no_overflow by lia. apply insert_height_spec.
Qed.

Lemma height_insert_witness :
  height sample <= height (insert sample 0) <= height sample + 1.
Proof. apply (height_insert sample 0). vm_compute. reflexivity. Defined.

(** X9. A deletion never raises the height and never adds a cell, whatever
    the shape of the tree, as long as the number of cells is within
    [int]. *)
Theorem height_delete (t t' : node) (k : Z) :
  Z.of_nat (count t) <= CInt.INT_MAX -> delete t k = Some t' ->
  height t' <= height t /\ (count t' <= count t)%nat.
Proof.
  intros Hc Hd. destruct (delete_shrinks t t' k Hd) as [Hh Hn].
  rewrite !height_no_overflow by lia. split; assumption.
Qed.

Lemma height_delete_witness :
  exists t', delete sample 1 = Some t' /\ height t' <= height sample.
Proof.
  exists (Node (Node NULL (Node NULL NULL 4) 3) (Node NULL NULL 8) 5).
  split; [reflexivity|].
  apply (height_delete sample _ 1); [vm_compute; discriminate|reflexivity].
Defined.

Lemma count_below_pow (t : node) :
  Z.of_nat (count t) + 1 <= 2 ^ height_spec t.
Proof.
  induction t as [|l IHl r IHr d]; cbn [count height_spec].
  - simpl. lia.
  - pose proof (height_spec_bounds l) as [Bl _].
    pose proof (height_spec_bounds r) as [Br _].
    rewrite Nat2Z.inj_succ, Nat2Z.inj_add.
    replace (1 + Z.max (height_spec l) (height_spec r))
      with (Z.succ (Z.max (height_spec l) (height_spec r))) by lia.
    rewrite Z.pow_succ_r by lia.
    assert (2 ^ height_spec l <= 2 ^ Z.max (height_spec l) (height_spec r))
      by (apply Z.pow_le_mono_r; lia).
    assert (2 ^ height_spec r <= 2 ^ Z.max (height_spec l) (height_spec r))
      by (apply Z.pow_le_mono_r; lia).
    lia.
Qed.

(** X10. A tree of height [h] holds fewer than [2 ^ h] keys, as long as
    the number of cells is within [int]. *)
Theorem count_below_pow_height (t : node) :
  Z.of_nat (count t) <= CInt.INT_MAX ->
  Z.of_nat (count t) < 2 ^ height t.
Proof.
  intros Hc. rewrite (height_no_overflow t Hc).
  pose proof (count_below_pow t). lia.
Qed.

Lemma count_below_pow_height_witness :
  Z.of_nat (count sample) < 2 ^ height sample.
Proof. apply (count_below_pow_height sample). vm_compute. discriminate. Defined.

Lemma insert_right_chain (ks : list Z) (k : Z) :
  Forall (fun x => x < k) ks ->
  insert (right_chain ks) k = right_chain (ks ++ [k]).
Proof.
  induction 1 as [|x ks Hx Hks IH]; simpl.
  - reflexivity.
  - destruct (Z.gtb_spec k x); [|lia]. rewrite IH. reflexivity.
Qed.

Lemma height_spec_right_chain (ks : list Z) :
  height_spec (right_chain ks) = Z.of_nat (length ks).
Proof.
  induction ks as [|k ks IH]; cbn [right_chain height_spec length].
  - reflexivity.
  - rewrite IH. lia.
Qed.

Lemma count_right_chain (ks : list Z) : count (right_chain ks) = length ks.
Proof.
  induction ks as [|k ks IH]; simpl; [reflexivity|]. rewrite IH. reflexivity.
Qed.

(** X11. Nothing rebalances the tree: keys inserted in ascending order end
    up on a single chain of right children, so that the height is the
    number of keys (as long as it is within [int]). *)
Theorem ascending_insertions_degenerate (ks : list Z) :
  ascending ks -> Z.of_nat (length ks) <= CInt.INT_MAX ->
  build ks = right_chain ks /\ height (build ks) = Z.of_nat (length ks).
Proof.
  intros Ha Hn.
  assert (E : build ks = right_chain ks).
  { clear Hn. induction ks as [|k ks IH] using rev_ind.
    - reflexivity.
    - rewrite build_snoc.
      pose proof (ascending_last ks k Ha) as Hlt.
      apply ascending_app in Ha. destruct Ha as (Hks & _).
      rewrite (IH Hks). apply insert_right_chain, Hlt. }
  split; [assumption|].
  rewrite E, height_no_overflow by (rewrite count_right_chain; assumption).
  apply height_spec_right_chain.
Qed.

Lemma ascending_insertions_degenerate_witness :
  height (build [1; 2; 3; 4]) = 4.
Proof.
  apply (ascending_insertions_degenerate [1; 2; 3; 4]).
  - repeat constructor.
  - vm_compute. discriminate.
Defined.

(** X12. Inserting keys and listing them in order sorts them: the in-order
    sequence of [build ks] is strictly ascending and holds exactly the keys
    of [ks]; when [ks] has no repetition it is a rearrangement of [ks]. *)
Theorem build_sorts (ks : list Z) :
  ascending (inOrder (build ks)) /\
  (forall x, In x (inOrder (build ks)) <-> In x ks) /\
  (NoDup ks -> Permutation ks (inOrder (build ks))).
Proof.
  split; [apply bst_ascending, build_bst|].
  split; [intros x; apply build_In|].
  intros Hnd. apply NoDup_Permutation.
  - assumption.
  - apply ascending_NoDup, bst_ascending, build_bst.
  - intros x. symmetry. apply build_In.
Qed.

(** ** [find] *)

(** X19. On a tree satisfying the ordering invariant, [find] returns 1 for
    the keys of the in-order sequence and 0 for all other integers, although
    it looks at one path only. *)
Theorem find_correct (t : node) (k : Z) :
  bst t ->
  (find t k = 1 <-> In k (inOrder t)) /\
  (find t k = 0 <-> ~ In k (inOrder t)).
Proof.
  intros Hb. split; [apply find_In|apply find_not_In]; assumption.
Qed.

Lemma find_correct_witness :
  (find sample 8 = 1 <-> In 8 (inOrder sample)) /\
  (find sample 8 = 0 <-> ~ In 8 (inOrder sample)).
Proof. apply (find_correct sample 8), bstb_spec. reflexivity. Defined.

(** ** [purge] *)

Lemma purge_length (t : node) : length (purge t) = count t.
Proof.
  induction t as [|l IHl r IHr d]; simpl; [reflexivity|].
  rewrite !length_app, IHl, IHr. simpl. lia.
Qed.

(** A pointer passed to [free] is a cell of the tree. *)
Lemma purge_cell (t c : node) :
  In c (purge t) ->
  exists l r k, c = Node l r k /\ In k (inOrder t).
Proof.
  induction t as [|l IHl r IHr d]; simpl; [contradiction|].
  rewrite !in_app_iff. simpl. intros [H|[H|[H|[]]]].
  - destruct (IHl H) as (cl & cr & k & -> & Hk).
    exists cl, cr, k. split; [reflexivity|]. apply in_or_app. auto.
  - destruct (IHr H) as (cl & cr & k & -> & Hk).
    exists cl, cr, k. split; [reflexivity|]. apply in_or_app.
    right. right. assumption.
  - subst c. exists l, r, d. split; [reflexivity|]. apply in_or_app.
    right. left. reflexivity.
Qed.

Lemma purge_NoDup (t : node) : bst t -> NoDup (purge t).
Proof.
  induction t as [|l IHl r IHr d]; simpl; [constructor|].
  intros (Hlt & Hgt & Hl & Hr).
  rewrite all_keys_Forall, Forall_forall in Hlt, Hgt.
  apply NoDup_app; [auto| |].
  - apply NoDup_app; [auto|repeat constructor; simpl; tauto|].
    intros c Hc [E|[]]. subst c.
    destruct (purge_cell r _ Hc) as (cl' & cr' & k' & E & Hk').
    injection E as -> -> ->. specialize (Hgt _ Hk'). lia.
  - intros c Hc Hc'. destruct (purge_cell l c Hc) as (cl & cr & k & -> & Hk).
    apply in_app_or in Hc'. destruct Hc' as [Hc'|[E|[]]].
    + destruct (purge_cell r _ Hc') as (cl' & cr' & k' & E & Hk').
      injection E as -> -> ->. specialize (Hlt _ Hk). specialize (Hgt _ Hk').
      lia.
    + injection E as -> -> ->. specialize (Hlt _ Hk). lia.
Qed.

(** The calls of [free] for the cells under a cell come right before the
    call for the cell itself. *)
Lemma purge_block (t l r : node) (d : Z) :
  In (Node l r d) (purge t) ->
  exists pre post,
    purge t = pre ++ (purge l ++ purge r ++ [Node l r d]) ++ post.
Proof.
  induction t as [|tl IHl tr IHr td]; simpl; [contradiction|].
  rewrite !in_app_iff. simpl. intros [H|[H|[H|[]]]].
  - destruct (IHl H) as (pre & post & ->).
    exists pre, (post ++ purge tr ++ [Node tl tr td]).
    rewrite <- !app_assoc. reflexivity.
  - destruct (IHr H) as (pre & post & ->).
    exists (purge tl ++ pre), (post ++ [Node tl tr td]).
    rewrite <- !app_assoc. reflexivity.
  - injection H as -> -> ->. exists [], []. rewrite app_nil_r. reflexivity.
Qed.

Lemma purge_every_key (t : node) (k : Z) :
  In k (inOrder t) -> exists l r, In (Node l r k) (purge t).
Proof.
  induction t as [|l IHl r IHr d]; simpl; [contradiction|].
  intros H. apply in_app_or in H. destruct H as [H|[H|H]].
  - destruct (IHl H) as (cl & cr & Hc). exists cl, cr.
    apply in_or_app. auto.
  - subst k. exists l, r. apply in_or_app. right. apply in_or_app.
    right. left. reflexivity.
  - destruct (IHr H) as (cl & cr & Hc). exists cl, cr.
    apply in_or_app. right. apply in_or_app. auto.
Qed.

(** X13. On a tree satisfying the ordering invariant, [purge] calls [free]
    once per cell and once on each cell: as many calls as cells, no pointer
    passed twice, never the null pointer, and every key's cell among them.
    A cell is released right after the cells below it, and the root is
    released last. *)
Theorem purge_frees_each_cell_once (t : node) :
  bst t ->
  length (purge t) = count t /\
  NoDup (purge t) /\
  ~ In NULL (purge t) /\
  (forall k, In k (inOrder t) -> exists l r, In (Node l r k) (purge t)) /\
  (forall l r d, In (Node l r d) (purge t) ->
     exists pre post,
       purge t = pre ++ (purge l ++ purge r ++ [Node l r d]) ++ post) /\
  (t <> NULL -> last (purge t) NULL = t).
Proof.
  intros Hb.
  split; [apply purge_length|].
  split; [apply purge_NoDup, Hb|].
  split.
  { intros H. destruct (purge_cell t NULL H) as (? & ? & ? & E & _).
    discriminate. }
  split; [intros k; apply purge_every_key|].
  split; [intros l r d; apply purge_block|].
  destruct t as [|l r d]; [congruence|]. intros _.
  cbn [purge]. rewrite app_assoc. apply last_last.
Qed.

Lemma purge_frees_each_cell_once_witness :
  NoDup (purge sample) /\ last (purge sample) NULL = sample.
Proof.
  destruct (purge_frees_each_cell_once sample) as (_ & Hnd & _ & _ & _ & Hl).
  - apply bstb_spec. reflexivity.
  - split; [exact Hnd|]. apply Hl. discriminate.
Defined.

(** * The console program *)

Module ConsoleFacts.

Import Ascii String Console.
Local Open Scope string_scope.

Lemma append_nil_r (s : string) : s ++ "" = s.
Proof. induction s as [|c s IH]; simpl; [reflexivity|]. rewrite IH. reflexivity. Qed.

Lemma append_assoc (s1 s2 s3 : string) : (s1 ++ s2) ++ s3 = s1 ++ s2 ++ s3.
Proof.
  induction s1 as [|c s1 IH]; simpl; [reflexivity|]. rewrite IH. reflexivity.
Qed.

Lemma join_app (xs ys : list string) :
  join (xs ++ ys)%list = join xs ++ join ys.
Proof.
  unfold join. induction xs as [|x xs IH]; simpl; [reflexivity|].
  rewrite IH, append_assoc. reflexivity.
Qed.

Lemma join_cons (x : string) (xs : list string) :
  join (x :: xs) = x ++ join xs.
Proof. reflexivity. Qed.

(** ** Listings *)

(** X14. What [inOrder] writes is one item, the key in decimal between
    brackets and tabulations, per key of the in-order sequence, in that
    order and with nothing in between. *)
Theorem inOrder_out_items (t : node) :
  inOrder_out t = join (map item (inOrder t)).
Proof.
  induction t as [|l IHl r IHr d]; cbn [inOrder_out inOrder].
  - reflexivity.
  - rewrite map_app, join_app, IHl, IHr. reflexivity.
Qed.

(** The [for] loop of [printTreeHelper] runs until [i] reaches [space]. *)
Lemma for_spaces_count (n : nat) (i space : Z) :
  (CInt.INT_MIN <= i)%Z -> (space <= CInt.INT_MAX)%Z ->
  n = Z.to_nat (space - i) ->
  for_spaces n i space = spaces n.
Proof.
  revert i. induction n as [|n IH]; intros i Hi Hs Hn; cbn [for_spaces spaces].
  - reflexivity.
  - destruct (Z.ltb_spec i space); [|lia].
    rewrite add_no_overflow
      by (unfold CInt.in_range, CInt.INT_MIN, CInt.INT_MAX in *; lia).
    rewrite IH; [reflexivity| |assumption|];
      unfold CInt.INT_MIN in *; lia.
Qed.

Lemma visit_keys (t : node) (depth : nat) :
  map snd (visit t depth) = rev (inOrder t).
Proof.
  revert depth. induction t as [|l IHl r IHr d]; intros depth; simpl.
  - reflexivity.
  - rewrite map_app, rev_app_distr. simpl.
    rewrite IHl, IHr, <- app_assoc. reflexivity.
Qed.

Lemma visit_depths (t : node) (depth : nat) :
  Forall (fun c => (Z.of_nat depth <= Z.of_nat (fst c)
                    < Z.of_nat depth + height_spec t)%Z)
         (visit t depth).
Proof.
  revert depth. induction t as [|l IHl r IHr d]; intros depth;
    cbn [visit height_spec].
  - constructor.
  - pose proof (height_spec_bounds l) as [Bl _].
    pose proof (height_spec_bounds r) as [Br _].
    apply Forall_app. split; [|constructor].
    + eapply Forall_impl; [|apply (IHr (S depth))]. cbv beta.
      intros c Hc. lia.
    + cbn [fst]. lia.
    + eapply Forall_impl; [|apply (IHl (S depth))]. cbv beta.
      intros c Hc. lia.
Qed.

Lemma printTreeHelper_lines (t : node) (depth : nat) :
  (10 * (Z.of_nat depth + height_spec t) <= CInt.INT_MAX)%Z ->
  printTreeHelper t (10 * Z.of_nat depth) = join (map line (visit t depth)).
Proof.
  revert depth. induction t as [|l IHl r IHr d]; intros depth Hh;
    cbn [printTreeHelper visit height_spec] in *.
  - reflexivity.
  - pose proof (height_spec_bounds l) as [Bl _].
    pose proof (height_spec_bounds r) as [Br _].
    rewrite add_no_overflow
      by (unfold CInt.in_range, CInt.INT_MIN, CInt.INT_MAX in *; lia).
    replace (10 * Z.of_nat depth + 10)%Z with (10 * Z.of_nat (S depth))%Z
      by lia.
    rewrite IHl, IHr by lia.
    unfold indent.
    rewrite (for_spaces_count _ 10 _)
      by (unfold CInt.INT_MIN, CInt.INT_MAX in *; lia).
    replace (Z.to_nat (10 * Z.of_nat (S depth) - 10)) with (10 * depth)%nat
      by lia.
    rewrite map_app, join_app. cbn [map]. rewrite join_cons.
    change (line (depth, d)) with (nl ++ spaces (10 * depth) ++ dec d ++ nl).
    rewrite !append_assoc. reflexivity.
Qed.

(** X15. [printTree] writes the fixed message on the empty tree.  On any
    other tree (of a height whose tenfold fits in an [int]) it writes one
    line per cell, an empty line before each: the key in decimal after ten
    blanks for each level of depth of the cell, the cells being taken right
    subtree first, so that the keys appear in the reverse of the in-order
    sequence, the root without indentation and no cell deeper than the
    height allows. *)
Theorem printTree_lines (t : node) :
  (10 * height_spec t <= CInt.INT_MAX)%Z ->
  printTree t =
    match t with
    | NULL => "Tree is empty!" ++ nl
    | Node _ _ _ => join (map line (visit t 0))
    end /\
  map snd (visit t 0) = rev (inOrder t) /\
  Forall (fun c => (Z.of_nat (fst c) < height_spec t)%Z) (visit t 0).
Proof.
  intros Hh. split; [|split].
  - destruct t as [|l r d]; [reflexivity|].
    unfold printTree. apply (printTreeHelper_lines _ 0%nat). simpl Z.of_nat.
    lia.
  - apply visit_keys.
  - eapply Forall_impl; [|apply (visit_depths t 0)]. cbv beta.
    intros c Hc. lia.
Qed.

Lemma printTree_lines_witness :
  printTree sample = join (map line [(1%nat, 8%Z); (0%nat, 5%Z); (2%nat, 4%Z);
                                     (1%nat, 3%Z); (2%nat, 1%Z)]).
Proof.
  destruct (printTree_lines sample) as (Hp & _).
  - vm_compute. discriminate.
  - exact Hp.
Defined.

(** ** The loop of [main] *)

(** Case analysis on the option, through the numerals of the [switch]. *)
Ltac switch_cases :=
  repeat match goal with
         | |- context [match ?x with _ => _ end] =>
             match type of x with
             | Z => destruct x
             | positive => destruct x
             end
         end.

Ltac step_done :=
  eexists; split; [reflexivity|]; cbn [root opt stdin];
  split;
  [ first [ left; reflexivity
          | right; left; eexists; reflexivity
          | right; right; eexists; eassumption ]
  | split;
    [ first [ left; reflexivity | right; left; reflexivity ]
    | intros z Hz; simpl in *; tauto ] ].

(** A pass through the loop always completes; it leaves the tree as it is
    or applies one [insert] or one [delete] to it, and it only reads from
    the input. *)
Lemma iteration_step (s : state) :
  exists s',
    iteration s = Some s' /\
    tree_step (root s) (root s') /\
    (opt s' = opt s \/ In (opt s') (stdin s)) /\
    incl (stdin s') (stdin s).
Proof.
  destruct s as [t o d input out]. unfold iteration, tree_step.
  cbn [root opt data stdin stdout].
  destruct input as [|x [|y rest]]; cbn [scanf]; switch_cases;
    try step_done;
    (destruct t as [|l r k]; [step_done|]);
    match goal with
    | |- context [delete ?a ?b] =>
        destruct (delete_defined a b) as [t' Ht']; rewrite Ht'
    end; cbn [bind]; step_done.
Qed.

Lemma tree_step_bst (t t' : node) : tree_step t t' -> bst t -> bst t'.
Proof.
  intros [->|[[k ->]|[k Hd]]] Hb.
  - assumption.
  - apply insert_bst, Hb.
  - eapply delete_bst; eassumption.
Qed.

Lemma main_loop_safe (fuel : nat) (s : state) :
  bst (root s) ->
  main_loop fuel s <> Undefined /\
  (forall status out freed,
     main_loop fuel s = Exit status out freed ->
     status = 0%Z /\ exists t, bst t /\ freed = purge t) /\
  (forall s', main_loop fuel s = Running s' ->
     bst (root s') /\ opt s' <> 0%Z).
Proof.
  revert s. induction fuel as [|fuel IH]; intros s Hb; cbn [main_loop];
    destruct (Z.eqb_spec (opt s) 0) as [E|E].
  - split; [discriminate|]. split; [|discriminate].
    intros status out freed H. injection H as <- _ <-. eauto.
  - split; [discriminate|]. split; [discriminate|].
    intros s' H. injection H as <-. auto.
  - split; [discriminate|]. split; [|discriminate].
    intros status out freed H. injection H as <- _ <-. eauto.
  - destruct (iteration_step s) as (s1 & -> & Ht & _).
    apply IH. eapply tree_step_bst; eassumption.
Qed.

(** X16. Whatever integers it reads and however long it runs, [main] never
    runs into the undefined access of [getMax]; the tree it holds satisfies
    the ordering invariant at every pass through the loop; and when it
    returns, it returns 0 after releasing the cells of such a tree. *)
Theorem main_safe (fuel : nat) (input : list Z) :
  main fuel input <> Undefined /\
  (forall status out freed,
     main fuel input = Exit status out freed ->
     status = 0%Z /\ exists t, bst t /\ freed = purge t) /\
  (forall s, main fuel input = Running s -> bst (root s) /\ opt s <> 0%Z).
Proof. apply main_loop_safe. exact I. Qed.

Lemma main_loop_running (fuel : nat) (s : state) :
  opt s <> 0%Z -> ~ In 0%Z (stdin s) ->
  exists s', main_loop fuel s = Running s'.
Proof.
  revert s. induction fuel as [|fuel IH]; intros s Ho Hi; cbn [main_loop];
    destruct (Z.eqb_spec (opt s) 0) as [E|E]; try contradiction.
  - eauto.
  - destruct (iteration_step s) as (s1 & -> & _ & Ho1 & Hi1).
    apply IH.
    + destruct Ho1 as [->|Hin]; [assumption|].
      intros E0. rewrite E0 in Hin. contradiction.
    + intros H0. apply Hi, Hi1, H0.
Qed.

(** X17. [main] leaves its loop only on reading the option 0: on an input
    that holds no 0, and in particular on an empty input, it is still in
    the loop after any number of passes. *)
Theorem main_runs_without_zero (fuel : nat) (input : list Z) :
  ~ In 0%Z input -> exists s, main fuel input = Running s.
Proof.
  intros Hi. apply main_loop_running; [discriminate|exact Hi].
Qed.

Lemma main_runs_without_zero_witness :
  exists s, main 5 [1%Z; 7%Z; 3%Z; 7%Z] = Running s.
Proof.
  apply (main_runs_without_zero 5 [1%Z; 7%Z; 3%Z; 7%Z]).
  simpl. intros [E|[E|[E|[E|[]]]]]; discriminate.
Defined.

Lemma main_loop_quit (fuel : nat) (s : state) (rest : list Z) :
  opt s <> 0%Z -> stdin s = (0%Z :: rest) ->
  main_loop (S fuel) s = Exit 0 (stdout s ++ menu) (purge (root s)).
Proof.
  intros Ho Hi. cbn [main_loop].
  destruct (Z.eqb_spec (opt s) 0) as [E|_]; [contradiction|].
  unfold iteration. rewrite Hi. cbn [scanf].
  destruct fuel; reflexivity.
Qed.

Lemma main_loop_session (ops : list operation) :
  forall (fuel : nat) (s : state) (t' : node) (rest : list Z),
    run ops (root s) = Some t' ->
    opt s <> 0%Z ->
    stdin s = (session (root s) ops ++ 0%Z :: rest)%list ->
    (List.length ops < fuel)%nat ->
    exists out, main_loop fuel s = Exit 0 out (purge t').
Proof.
  induction ops as [|o ops IH]; intros fuel s t' rest Hr Ho Hi Hf;
    (destruct fuel as [|fuel]; [simpl in Hf; lia|]).
  - cbn [run] in Hr. injection Hr as <-. cbn [session app] in Hi.
    rewrite (main_loop_quit fuel s rest Ho Hi). eauto.
  - cbn [run] in Hr. cbn [session] in Hi.
    destruct (apply_op (root s) o) as [t1|] eqn:Ha; [|discriminate].
    cbn [bind] in Hr.
    cbn [main_loop].
    destruct (Z.eqb_spec (opt s) 0) as [E|_]; [contradiction|].
    destruct s as [t oo d input out]. cbn [root opt data stdin stdout] in *.
    subst input.
    destruct o as [k|k]; cbn [apply_op typed] in *.
    + injection Ha as <-. unfold iteration.
      cbn [root opt data stdin stdout app scanf].
      apply (IH fuel _ t' rest); cbn [root opt stdin];
        [assumption|discriminate|reflexivity|simpl in Hf; lia].
    + destruct t as [|l r d0].
      * cbn [delete] in Ha. injection Ha as <-. unfold iteration.
        cbn [root opt data stdin stdout app scanf].
        apply (IH fuel _ t' rest); cbn [root opt stdin];
          [assumption|discriminate|reflexivity|simpl in Hf; lia].
      * unfold iteration.
        cbn [root opt data stdin stdout app scanf].
        rewrite Ha. cbn [bind].
        apply (IH fuel _ t' rest); cbn [root opt stdin];
          [assumption|discriminate|reflexivity|simpl in Hf; lia].
Qed.

(** X18. When the user follows the prompts through a series of insertions
    and deletions (option 1 and a key, option 2 and a key, or option 2
    alone while the tree is empty) and then types 0, [main] returns 0 after
    as many passes as there were requests plus one, whatever follows on the
    input, and the cells it releases are those of the tree the series of
    [insert] and [delete] calls yields from the empty tree. *)
Theorem main_session (ops : list operation) (rest : list Z)
        (fuel : nat) (t : node) :
  run ops NULL = Some t ->
  (List.length ops < fuel)%nat ->
  exists out,
    main fuel (session NULL ops ++ 0%Z :: rest) = Exit 0 out (purge t).
Proof.
  intros Hr Hf. unfold main.
  apply (main_loop_session ops fuel _ t rest); cbn [root opt stdin];
    [assumption|discriminate|reflexivity|assumption].
Qed.

Lemma main_session_witness :
  exists out,
    main 4 [2; 1; 5; 1; 3; 0; 9]%Z =
      Exit 0 out [Node NULL NULL 3; Node (Node NULL NULL 3) NULL 5].
Proof.
  apply (main_session [Delete 4; Insert 5; Insert 3] [9%Z] 4
                      (Node (Node NULL NULL 3) NULL 5)).
  - reflexivity.
  - simpl. lia.
Defined.

End ConsoleFacts.
